(** * react-three-basketball: scoring trigger, score store and round clock

    A shallow embedding of the game logic of [src/App.jsx]: the zustand store
    ([useStore]), the trigger callbacks of [Hoop] ([onCollideBegin],
    [onCollideEnd]) and the per-frame callback of [Scene] ([useFrame]).
    Rendering, the physics engine and React's scheduling are outside the
    model; what they hand to the code (a collision with the velocity of the
    colliding body, the elapsed time of the clock) is an argument of the
    embedded callback. *)

From Stdlib Require Import ZArith QArith Qround Qabs Qreduction Bool List Lia Lqa.
From Stdlib Require Qcanon.
Import ListNotations.

(** ** JavaScript numbers

    The values of the [number] type: NaN, the two infinities, and the finite
    values, each carried as the rational it denotes (every finite double is
    one).  Comparison and [parseInt] are functions of that value.  Sums and
    differences are rounded as binary64 does: to the nearest double, ties to
    the even significand, beyond the largest double to an infinity.
    Negative zero is identified with zero: no operation used here tells
    them apart. *)
Module JS.

Inductive number : Type :=
| NaN
| NegInfinity
| Infinity
| Fin (q : Q).

Definition Qltb (x y : Q) : bool := negb (Qle_bool y x).

(** [a < b]; false as soon as one side is NaN. *)
Definition lt (a b : number) : bool :=
  match a, b with
  | NaN, _ | _, NaN => false
  | NegInfinity, NegInfinity => false
  | NegInfinity, _ => true
  | _, NegInfinity => false
  | Infinity, _ => false
  | Fin _, Infinity => true
  | Fin x, Fin y => Qltb x y
  end.

(** [a > b] *)
Definition gt (a b : number) : bool := lt b a.

(** The binade of a positive rational: floor(log2 (n/d)). *)
Definition binade (n d : positive) : Z :=
  let e := (Z.log2 (Zpos n) - Z.log2 (Zpos d))%Z in
  if (Zpos n * 2 ^ Z.max 0 (- e) <? Zpos d * 2 ^ Z.max 0 e)%Z
  then (e - 1)%Z
  else e.

(** [n / d] rounded to the nearest integer, a tie to the even one. *)
Definition round_half_even (n d : Z) : Z :=
  let q := (n / d)%Z in
  match (2 * (n mod d) ?= d)%Z with
  | Lt => q
  | Gt => (q + 1)%Z
  | Eq => if Z.even q then q else (q + 1)%Z
  end.

(** The double nearest to [n / d], with the sign given.  The unit in the
    last place is 2^(binade - 52), and 2^-1074 for subnormals; the result
    is kept in lowest terms. *)
Definition round64_pos (negative : bool) (n d : positive) : number :=
  let ulp := Z.max (binade n d - 52) (-1074) in
  let m := round_half_even (Zpos n * 2 ^ Z.max 0 (- ulp))
                           (Zpos d * 2 ^ Z.max 0 ulp) in
  let v := (m * 2 ^ Z.max 0 ulp)%Z in
  if (2 ^ 1024 <=? v)%Z
  then if negative then NegInfinity else Infinity
  else Fin (Qred (Qmake (if negative then (- v)%Z else v)
                        (Z.to_pos (2 ^ Z.max 0 (- ulp))))).

(** Rounding of an exact result to binary64. *)
Definition round64 (q : Q) : number :=
  match Qnum q with
  | Z0 => Fin 0
  | Zpos n => round64_pos false n (Qden q)
  | Zneg n => round64_pos true n (Qden q)
  end.

Arguments round64 : simpl never.

(** [a + b] *)
Definition add (a b : number) : number :=
  match a, b with
  | NaN, _ | _, NaN => NaN
  | Infinity, NegInfinity | NegInfinity, Infinity => NaN
  | Infinity, _ | _, Infinity => Infinity
  | NegInfinity, _ | _, NegInfinity => NegInfinity
  | Fin x, Fin y => round64 (x + y)
  end.

(** [-a] *)
Definition neg (a : number) : number :=
  match a with
  | NaN => NaN
  | NegInfinity => Infinity
  | Infinity => NegInfinity
  | Fin x => Fin (- x)
  end.

(** [a - b] *)
Definition sub (a b : number) : number :=
  match a, b with
  | Fin x, Fin y => round64 (x - y)
  | _, _ => add a (neg b)
  end.

(** The integer part of a rational, rounding toward zero. *)
Definition Qtrunc (q : Q) : Z := Z.quot (Qnum q) (Zpos (Qden q)).

(** [Number::toString] writes a finite value in plain decimal notation
    ("7", "10.9", "-0.25") with its exact integer part when the value is
    zero or has magnitude at least 1e-6 and below 2^53. *)
Definition plain_decimal (q : Q) : bool :=
  Qeq_bool q 0
  || (Qle_bool (1 # 1000000) (Qabs q) && Qltb (Qabs q) (inject_Z (2 ^ 53))).

Section ParseInt.

(** For the other finite values the string is in exponent notation
    ("5e-7", "1.5e+21") or zero padded, and its digits come from the
    engine's shortest round-trip printing, which is no part of this
    program: [printed_prefix q] stands for the integer denoted by the
    sign and digits [parseInt] reads before the first character that is
    no digit. *)
Variable printed_prefix : Q -> Z.

(** [parseInt(n)] of a number: the argument is converted to a string, and
    the longest prefix that is an integer literal is read; "NaN",
    "Infinity" and "-Infinity" have none. *)
Definition parseInt (n : number) : number :=
  match n with
  | NaN | NegInfinity | Infinity => NaN
  | Fin q =>
      if plain_decimal q then Fin (inject_Z (Qtrunc q))
      else Fin (inject_Z (printed_prefix q))
  end.

End ParseInt.

End JS.

Import JS.

Declare Scope js_scope.
Delimit Scope js_scope with js.
Bind Scope js_scope with number.
Infix "<?" := JS.lt : js_scope.
Infix ">?" := JS.gt (at level 70) : js_scope.
Infix "+" := JS.add : js_scope.
Infix "-" := JS.sub : js_scope.

(** Number literals of the source. *)
Definition num (z : Z) : number := Fin (inject_Z z).

(** ** The store ([useStore])  *)

Definition ROUND_DURATION : number := num 10.

Record Store : Type := {
  score : number;
  timeLeft : number;
  gameOver : bool
}.

(** The state [create] is called with. *)
Definition useStore : Store :=
  {| score := num 0; timeLeft := ROUND_DURATION; gameOver := false |}.

(** [addPoint: () => set(state => ({ score: state.score + 1 }))] *)
Definition addPoint (state : Store) : Store :=
  {| score := (score state + num 1)%js;
     timeLeft := timeLeft state;
     gameOver := gameOver state |}.

(** [resetScore: () => set({ score: 0 })] *)
Definition resetScore (state : Store) : Store :=
  {| score := num 0; timeLeft := timeLeft state; gameOver := gameOver state |}.

(** [setTimeLeft: seconds => set(() => ({ timeLeft: seconds }))] *)
Definition setTimeLeft (seconds : number) (state : Store) : Store :=
  {| score := score state; timeLeft := seconds; gameOver := gameOver state |}.

(** [setGameOver: over => set(() => ({ gameOver: over }))] *)
Definition setGameOver (over : bool) (state : Store) : Store :=
  {| score := score state; timeLeft := timeLeft state; gameOver := over |}.

(** ** The game: store, the hoop's ref and the materials of the balls *)

(** Bodies are told apart by the identifier the physics engine gives them. *)
Definition uuid : Type := nat.

(** What a trigger callback reads of its argument: the colliding body and
    [collision.body.velocity.current.y] at the time of the call. *)
Record Collision : Type := {
  body : uuid;
  velocity_y : number
}.

Definition COLORS_ball : Z := 0xf55951.

Record Game : Type := {
  store : Store;
  (** [scorable.current] of [Hoop] *)
  scorable : bool;
  (** [material.color] of each ball, as the hex value *)
  color : uuid -> Z
}.

(** [useRef(false)], the fresh store, balls in [COLORS.ball]. *)
Definition initial : Game :=
  {| store := useStore; scorable := false; color := fun _ => COLORS_ball |}.

Definition set_scorable (b : bool) (g : Game) : Game :=
  {| store := store g; scorable := b; color := color g |}.

Definition with_store (f : Store -> Store) (g : Game) : Game :=
  {| store := f (store g); scorable := scorable g; color := color g |}.

(** [b.material.color.setHex(hex)] *)
Definition setHex (b : uuid) (hex : Z) (g : Game) : Game :=
  {| store := store g;
     scorable := scorable g;
     color := fun b' => if Nat.eqb b' b then hex else color g b' |}.

(** ** [Hoop]: the trigger box *)

(** [onCollideBegin]: make sure the ball is dropping from above. *)
Definition onCollideBegin (collision : Collision) (g : Game) : Game :=
  if (velocity_y collision <? num 0)%js
  then set_scorable true g
  else set_scorable false g.

(** The body of the [if] in [onCollideEnd]: one point, and the ball is
    recoloured. *)
Definition score_event (collision : Collision) (g : Game) : Game :=
  setHex (body collision) 0xc698d (with_store addPoint g).

(** [onCollideEnd]: and falling down through the trigger. *)
Definition onCollideEnd (collision : Collision) (g : Game) : Game :=
  let g' :=
    if scorable g && (velocity_y collision <? num 1)%js
    then score_event collision g
    else g in
  set_scorable false g'.

(** ** [Scene]: the round clock *)

Section Scene.

Variable printed_prefix : Q -> Z.

(** The callback given to [useFrame].  [gameOver_seen] is the [gameOver]
    the component read from the store when it rendered; the callback closes
    over it. *)
Definition useFrame (gameOver_seen : bool) (elapsedTime : number)
           (state : Store) : Store :=
  if negb gameOver_seen && (elapsedTime >? ROUND_DURATION + num 1)%js
  then setGameOver true state
  else if negb gameOver_seen
  then setTimeLeft (ROUND_DURATION - parseInt printed_prefix elapsedTime)%js state
  else state.

(** One frame: [Scene] has rendered with the store as it is (it subscribes
    to the store and renders again on every change), then the callback
    runs with the clock's elapsed time. *)
Definition tick (elapsedSeconds : number) (state : Store) : Store :=
  useFrame (gameOver state) elapsedSeconds state.

(** A run of frames, oldest first. *)
Definition ticks (elapsed : list number) (state : Store) : Store :=
  fold_left (fun st t => tick t st) elapsed state.

(** What happens to the game, one callback at a time. *)
Inductive event : Type :=
| Frame (elapsedTime : number)
| CollideBegin (collision : Collision)
| CollideEnd (collision : Collision).

Definition step (g : Game) (e : event) : Game :=
  match e with
  | Frame t => with_store (tick t) g
  | CollideBegin c => onCollideBegin c g
  | CollideEnd c => onCollideEnd c g
  end.

Definition run (es : list event) (g : Game) : Game := fold_left step es g.

End Scene.

(** ** Vocabulary of the properties *)

(** The number is strictly less than the rational [y]. *)
Definition below (n : number) (y : Q) : Prop :=
  match n with
  | Fin x => x < y
  | NegInfinity => True
  | NaN | Infinity => False
  end.

(** A score event for the body of [c] separates [before] from [after]:
    [addPoint] ran once and the body took the colour of a scored ball. *)
Definition scored (c : Collision) (before after : Game) : Prop :=
  store after = addPoint (store before) /\
  forall b, color after b = if Nat.eqb b (body c) then 0xc698d%Z else color before b.

(** No score event: the store and every material are as they were. *)
Definition no_score (before after : Game) : Prop :=
  store after = store before /\ color after = color before.

(** A run of region entries, oldest first. *)
Definition entries (cs : list Collision) (g : Game) : Game :=
  fold_left (fun g c => onCollideBegin c g) cs g.

Definition is_frame (e : event) : Prop :=
  match e with
  | Frame _ => True
  | _ => False
  end.

(** The history leaves the region armed: its last trigger callback is an
    entry of a body moving down (only frames follow it). *)
Definition armed_history (es : list event) : Prop :=
  exists pre c post,
    es = pre ++ CollideBegin c :: post /\
    (velocity_y c <? num 0)%js = true /\
    Forall is_frame post.

(** Elapsed times that never go back. *)
Fixpoint nondecreasing (ts : list Q) : Prop :=
  match ts with
  | [] => True
  | t :: ts' =>
      match ts' with
      | [] => True
      | t' :: _ => t <= t' /\ nondecreasing ts'
      end
  end.

(** The remaining time the specification gives for an elapsed time:
    max(0, roundDuration - floor(elapsedSeconds)). *)
Definition clamped_timeLeft (elapsedSeconds : Q) : number :=
  num (Z.max 0 (10 - Qfloor elapsedSeconds)).

(** ** [Court] and [Ball]: the balls on the court *)

(** The first argument of [api.applyImpulse]; the second is always
    [[0, 0, 0]], the centre of the ball. *)
Definition impulse : Type := (Z * Z * Z)%type.

Record Court : Type := {
  (** the state of [useState([])]: the keys of the balls, in order *)
  balls : list uuid;
  (** how many identifiers [uuid.generate] has handed out *)
  generated : nat;
  (** the calls of [applyImpulse], oldest first, each with the ball whose
      [api] it went to *)
  impulses : list (uuid * impulse)
}.

(** [Court] before its first effect: [useState([])]. *)
Definition Court_rendered : Court :=
  {| balls := []; generated := 0; impulses := [] |}.

Definition applyImpulse (key : uuid) (i : impulse) (c : Court) : Court :=
  {| balls := balls c; generated := generated c;
     impulses := impulses c ++ [(key, i)] |}.

Definition is_launch (p : uuid * impulse) : bool :=
  let '(_, (x, y, z)) := p in ((x =? 0) && (y =? 15) && (z =? -10))%Z.

Definition is_nudge (p : uuid * impulse) : bool :=
  let '(_, (x, y, z)) := p in ((x =? 0) && (y =? 0) && (z =? -2))%Z.

Section Balls.

(** [uuid.generate()]: the identifier handed out by the n-th call. *)
Variable generate : nat -> uuid.

(** [addBall = e => set(balls => [...balls, uuid.generate()])] *)
Definition addBall (c : Court) : Court :=
  {| balls := balls c ++ [generate (generated c)];
     generated := S (generated c);
     impulses := impulses c |}.

(** [addBall] and the render that follows it: the one new [Ball] mounts and
    its effect, [api.applyImpulse([0, 0, -2], [0, 0, 0])], runs. *)
Definition addBall_mounted (c : Court) : Court :=
  applyImpulse (generate (generated c)) (0, 0, -2)%Z (addBall c).

(** The effect of [Court]: [addBall()] once, on mount. *)
Definition Court_mounted : Court := addBall_mounted Court_rendered.

(** [shoot] of the ball with this key. *)
Definition shoot (key : uuid) (c : Court) : Court :=
  addBall_mounted (applyImpulse key (0, 15, -10)%Z c).

(** [onPointerDown={shoot}]: only a ball that is rendered can be hit. *)
Definition onPointerDown (key : uuid) (c : Court) : Court :=
  if existsb (Nat.eqb key) (balls c) then shoot key c else c.

(** A run of pointer events, oldest first. *)
Definition pointers (keys : list uuid) (c : Court) : Court :=
  fold_left (fun c key => onPointerDown key c) keys c.

End Balls.

(** ** Vocabulary of the further properties *)

(** An entry that arms the region, an exit slow enough to score, a frame
    past the end of the round. *)
Definition is_armed_entry (e : event) : bool :=
  match e with
  | CollideBegin c => (velocity_y c <? num 0)%js
  | _ => false
  end.

Definition is_slow_exit (e : event) : bool :=
  match e with
  | CollideEnd c => (velocity_y c <? num 1)%js
  | _ => false
  end.

Definition is_frame_past_end (e : event) : bool :=
  match e with
  | Frame t => (t >? ROUND_DURATION + num 1)%js
  | _ => false
  end.

(** An elapsed time the clock can show and [Number::toString] prints in
    plain decimal notation: zero, or at least 1e-6. *)
Definition plain_time (t : Q) : Prop := t == 0 \/ 1 # 1000000 <= t.

(** ** Numbers: comparison and the two arithmetic operations *)

Lemma Qltb_lt (x y : Q) : Qltb x y = true <-> x < y.
Proof.
  unfold Qltb. rewrite negb_true_iff. split.
  - intros H. apply Qnot_le_lt. intros Hle.
    apply Qle_bool_iff in Hle. congruence.
  - intros H. destruct (Qle_bool y x) eqn:E; [|reflexivity].
    apply Qle_bool_iff in E. lra.
Qed.

Lemma Qltb_ge (x y : Q) : Qltb x y = false <-> y <= x.
Proof.
  unfold Qltb. rewrite negb_false_iff. apply Qle_bool_iff.
Qed.

Lemma lt_below (n : number) (y : Q) : (n <? Fin y)%js = true <-> below n y.
Proof.
  destruct n as [| | |x]; simpl; try (split; [discriminate|contradiction]).
  - split; auto.
  - apply Qltb_lt.
Qed.

Lemma lt_NaN_l (n : number) : (NaN <? n)%js = false.
Proof. destruct n; reflexivity. Qed.

Lemma Qred_inject_Z (z : Z) : Qred (inject_Z z) = inject_Z z.
Proof. apply Qcanon.Qred_identity. simpl. apply Z.gcd_1_r. Qed.

Lemma binade_integer (n : positive) : binade n 1 = Z.log2 (Zpos n).
Proof.
  unfold binade. change (Z.log2 1) with 0%Z. rewrite Z.sub_0_r.
  pose proof (Z.log2_nonneg (Zpos n)) as Hnn.
  destruct (Z.log2_spec (Zpos n)) as [Hlo _]; [lia|].
  rewrite (Z.max_l 0 (- Z.log2 (Zpos n))) by lia.
  rewrite (Z.max_r 0 (Z.log2 (Zpos n))) by lia.
  destruct (Zpos n * 2 ^ 0 <? 1 * 2 ^ Z.log2 (Zpos n))%Z eqn:E; [|reflexivity].
  apply Z.ltb_lt in E. lia.
Qed.

Lemma round_half_even_1 (n : Z) : round_half_even n 1 = n.
Proof.
  unfold round_half_even. rewrite Z.mod_1_r, Z.div_1_r. reflexivity.
Qed.

(** Integers of magnitude up to 2^53 are doubles: rounding keeps them. *)
Lemma round64_pos_integer (neg : bool) (n : positive) :
  (Zpos n <= 2 ^ 53)%Z ->
  round64_pos neg n 1 = Fin (inject_Z (if neg then Zneg n else Zpos n)).
Proof.
  intros Hle.
  destruct (Z.eq_dec (Zpos n) (2 ^ 53)) as [Heq|Hne].
  - injection Heq as ->. destruct neg; vm_compute; reflexivity.
  - assert (Hlt : (Zpos n < 2 ^ 53)%Z) by lia.
    assert (He : (0 <= Z.log2 (Zpos n) <= 52)%Z).
    { split; [apply Z.log2_nonneg|].
      apply Z.lt_succ_r. apply Z.log2_lt_pow2; lia. }
    unfold round64_pos. rewrite binade_integer.
    set (e := Z.log2 (Zpos n)) in *.
    rewrite (Z.max_l (e - 52) (-1074)) by lia.
    rewrite (Z.max_r 0 (- (e - 52))) by lia.
    rewrite (Z.max_l 0 (e - 52)) by lia.
    change (Zpos 1 * 2 ^ 0)%Z with 1%Z.
    rewrite round_half_even_1. rewrite Z.pow_0_r, Z.mul_1_r.
    assert (Hp : (0 < 2 ^ (- (e - 52)))%Z) by (apply Z.pow_pos_nonneg; lia).
    assert (Hp52 : (2 ^ (- (e - 52)) <= 2 ^ 52)%Z)
      by (apply Z.pow_le_mono_r; lia).
    destruct (2 ^ 1024 <=? Zpos n * 2 ^ (- (e - 52)))%Z eqn:Eo.
    + apply Z.leb_le in Eo.
      assert (Zpos n * 2 ^ (- (e - 52)) < 2 ^ 53 * 2 ^ 52)%Z by nia.
      assert (2 ^ 53 * 2 ^ 52 < 2 ^ 1024)%Z by reflexivity.
      lia.
    + f_equal. rewrite <- Qred_inject_Z. apply Qred_complete.
      unfold Qeq, inject_Z. cbn [Qnum Qden].
      rewrite Z2Pos.id by exact Hp.
      destruct neg; lia.
Qed.

Lemma round64_integer (z : Z) :
  (- 2 ^ 53 <= z <= 2 ^ 53)%Z -> round64 (inject_Z z) = Fin (inject_Z z).
Proof.
  intros Hz. unfold round64, inject_Z. cbn [Qnum Qden].
  destruct z as [|n|n].
  - reflexivity.
  - apply (round64_pos_integer false). lia.
  - apply (round64_pos_integer true). lia.
Qed.

Lemma add_num (a b : Z) :
  (- 2 ^ 53 <= a + b <= 2 ^ 53)%Z -> (num a + num b)%js = num (a + b).
Proof.
  intros H. unfold num. cbn [add].
  replace (inject_Z a + inject_Z b)%Q with (inject_Z (a + b)).
  - apply round64_integer, H.
  - unfold inject_Z, Qplus. cbn [Qnum Qden]. f_equal. lia.
Qed.

Lemma sub_num (a b : Z) :
  (- 2 ^ 53 <= a - b <= 2 ^ 53)%Z -> (num a - num b)%js = num (a - b).
Proof.
  intros H. unfold num. cbn [sub].
  replace (inject_Z a - inject_Z b)%Q with (inject_Z (a - b)).
  - apply round64_integer, H.
  - unfold inject_Z, Qminus, Qplus, Qopp. cbn [Qnum Qden]. f_equal. lia.
Qed.

(** At 2^53 a further 1 is lost: 2^53 + 1 lies half way between the doubles
    2^53 and 2^53 + 2 and goes to the even one. *)
Lemma add_one_at_2_53 : (num (2 ^ 53) + num 1)%js = num (2 ^ 53).
Proof. vm_compute. reflexivity. Qed.

Lemma round_end : (ROUND_DURATION + num 1)%js = num 11.
Proof. reflexivity. Qed.

(** ** The store *)

Lemma num_inj (a b : Z) : num a = num b -> a = b.
Proof. intros H. injection H as H. exact H. Qed.

(** Below 2^53 a point is one more; at 2^53 it is lost. *)
Lemma addPoint_score (st : Store) (k : Z) :
  score st = num k -> (0 <= k < 2 ^ 53)%Z ->
  score (addPoint st) = num (k + 1).
Proof.
  intros Hk Hr. unfold addPoint. cbn [score]. rewrite Hk.
  apply add_num. lia.
Qed.

Lemma addPoint_score_top (st : Store) :
  score st = num (2 ^ 53) -> score (addPoint st) = num (2 ^ 53).
Proof.
  intros Hk. unfold addPoint. cbn [score]. rewrite Hk.
  apply add_one_at_2_53.
Qed.

Lemma addPoint_changes (st : Store) (k : Z) :
  score st = num k -> (0 <= k < 2 ^ 53)%Z -> addPoint st <> st.
Proof.
  intros Hk Hr Heq. apply (f_equal score) in Heq.
  rewrite (addPoint_score st k Hk Hr), Hk in Heq.
  apply num_inj in Heq. lia.
Qed.

Lemma iter_addPoint (N : nat) (st : Store) (z : Z) :
  score st = num z -> (0 <= z)%Z -> (z + Z.of_nat N <= 2 ^ 53)%Z ->
  score (Nat.iter N addPoint st) = num (z + Z.of_nat N).
Proof.
  intros Hz Hpos. induction N as [|N IH]; intros Hle.
  - cbn [Nat.iter nat_rect]. rewrite Hz. f_equal. lia.
  - rewrite Nat.iter_succ.
    rewrite (addPoint_score _ (z + Z.of_nat N)); [f_equal; lia|apply IH; lia|lia].
Qed.

Lemma iter_addPoint_frame (N : nat) (st : Store) :
  timeLeft (Nat.iter N addPoint st) = timeLeft st /\
  gameOver (Nat.iter N addPoint st) = gameOver st.
Proof.
  induction N as [|N [IH1 IH2]]; [split; reflexivity|].
  rewrite Nat.iter_succ. split; assumption.
Qed.

(** C6, as the code has it.  From score zero, [N] calls of [addPoint] leave
    the score at [N] for every [N] up to 2^53; below 2^53 every call turns
    the count [k] into [k + 1], which is strictly greater; at 2^53 a call
    leaves the score where it is; [resetScore] leaves the score at 0
    whatever it was.  Neither touches [timeLeft] or [gameOver]. *)
Theorem addPoint_counts_to_2_53_resetScore_zeroes :
  (forall (N : nat) (t : number) (o : bool),
      (Z.of_nat N <= 2 ^ 53)%Z ->
      score (Nat.iter N addPoint {| score := num 0; timeLeft := t; gameOver := o |})
      = num (Z.of_nat N)) /\
  (forall (k : Z) (t : number) (o : bool),
      (0 <= k < 2 ^ 53)%Z ->
      let st := {| score := num k; timeLeft := t; gameOver := o |} in
      score (addPoint st) = num (k + 1) /\
      (score st <? score (addPoint st))%js = true) /\
  (forall (t : number) (o : bool),
      score (addPoint {| score := num (2 ^ 53); timeLeft := t; gameOver := o |})
      = num (2 ^ 53)) /\
  (forall st : Store,
      score (resetScore st) = num 0 /\
      timeLeft (resetScore st) = timeLeft st /\
      gameOver (resetScore st) = gameOver st) /\
  (forall (N : nat) (st : Store),
      score (resetScore (Nat.iter N addPoint st)) = num 0 /\
      timeLeft (Nat.iter N addPoint st) = timeLeft st /\
      gameOver (Nat.iter N addPoint st) = gameOver st).
Proof.
  split; [|split; [|split; [|split]]].
  - intros N t o HN.
    rewrite (iter_addPoint N _ 0%Z); [f_equal|reflexivity|lia|lia].
  - intros k t o Hk st.
    assert (Hs : score (addPoint st) = num (k + 1))
      by (apply addPoint_score; [reflexivity|exact Hk]).
    split; [exact Hs|]. rewrite Hs. unfold st, num. cbn [score lt].
    apply Qltb_lt. rewrite <- Zlt_Qlt. lia.
  - intros t o. apply addPoint_score_top. reflexivity.
  - intros st. split; [reflexivity|]. split; reflexivity.
  - intros N st. split; [reflexivity|]. apply iter_addPoint_frame.
Qed.

Lemma addPoint_counts_witness :
  score (Nat.iter 3 addPoint useStore) = num 3 /\
  score (addPoint useStore) = num 1.
Proof.
  split.
  - apply (proj1 addPoint_counts_to_2_53_resetScore_zeroes 3%nat). lia.
  - apply (proj1 (proj2 addPoint_counts_to_2_53_resetScore_zeroes)
                 0%Z ROUND_DURATION false).
    lia.
Defined.

(** After 2^53 points one more call leaves the score at 2^53: 2^53 + 1
    calls from zero do not give 2^53 + 1, and the last of them does not
    raise the score. *)
Lemma addPoint_stalls_at_2_53 :
  let N := Z.to_nat (2 ^ 53) in
  score (Nat.iter (S N) addPoint useStore) = num (2 ^ 53) /\
  score (Nat.iter (S N) addPoint useStore) = score (Nat.iter N addPoint useStore) /\
  Z.of_nat (S N) = (2 ^ 53 + 1)%Z.
Proof.
  intros N.
  assert (HN : Z.of_nat N = (2 ^ 53)%Z) by (unfold N; apply Z2Nat.id; lia).
  clearbody N.
  assert (Hs : score (Nat.iter N addPoint useStore) = num (2 ^ 53)).
  { rewrite (iter_addPoint N useStore 0%Z); [f_equal; lia|reflexivity|lia|lia]. }
  rewrite Nat.iter_succ.
  rewrite (addPoint_score_top _ Hs).
  split; [reflexivity|]. split; [symmetry; exact Hs|].
  rewrite Nat2Z.inj_succ. lia.
Qed.

(** ** The trigger callbacks *)

Lemma onCollideBegin_scorable (c : Collision) (g : Game) :
  scorable (onCollideBegin c g) = (velocity_y c <? num 0)%js.
Proof.
  unfold onCollideBegin. destruct (velocity_y c <? num 0)%js; reflexivity.
Qed.

Lemma onCollideBegin_no_score (c : Collision) (g : Game) :
  no_score g (onCollideBegin c g).
Proof.
  unfold onCollideBegin, no_score.
  destruct (velocity_y c <? num 0)%js; split; reflexivity.
Qed.

Lemma onCollideEnd_scorable (c : Collision) (g : Game) :
  scorable (onCollideEnd c g) = false.
Proof. reflexivity. Qed.

Lemma onCollideEnd_scored (c : Collision) (g : Game) :
  scorable g && (velocity_y c <? num 1)%js = true ->
  scored c g (onCollideEnd c g).
Proof.
  intros H. unfold onCollideEnd. rewrite H. split; reflexivity.
Qed.

Lemma onCollideEnd_no_score (c : Collision) (g : Game) :
  scorable g && (velocity_y c <? num 1)%js = false ->
  no_score g (onCollideEnd c g).
Proof.
  intros H. unfold onCollideEnd. rewrite H. split; reflexivity.
Qed.

(** While a point still changes the score, the two outcomes exclude each
    other. *)
Lemma scored_excludes_no_score (c : Collision) (g g' : Game) (k : Z) :
  score (store g) = num k -> (0 <= k < 2 ^ 53)%Z ->
  scored c g g' -> no_score g g' -> False.
Proof.
  intros Hk Hr [Hs _] [Hn _]. rewrite Hn in Hs.
  symmetry in Hs. exact (addPoint_changes _ _ Hk Hr Hs).
Qed.

(** One exit, whatever came before it: a score event exactly when the flag
    is set and the velocity is below 1, and the flag is cleared. *)
Lemma onCollideEnd_spec (c : Collision) (g : Game) (k : Z) :
  score (store g) = num k -> (0 <= k < 2 ^ 53)%Z ->
  (scored c g (onCollideEnd c g) <->
   scorable g = true /\ below (velocity_y c) 1) /\
  (~ scored c g (onCollideEnd c g) -> no_score g (onCollideEnd c g)) /\
  (scored c g (onCollideEnd c g) ->
   score (store (onCollideEnd c g)) = num (k + 1)) /\
  scorable (onCollideEnd c g) = false.
Proof.
  intros Hk Hr.
  destruct (scorable g && (velocity_y c <? num 1)%js) eqn:E.
  - pose proof (onCollideEnd_scored c g E) as Hs.
    apply andb_true_iff in E. destruct E as [Ea Ev].
    apply lt_below in Ev.
    split; [split; [intros _; split; assumption | intros _; exact Hs] |].
    split; [intros Hn; contradiction |].
    split; [| reflexivity].
    intros _. destruct Hs as [Hs _]. rewrite Hs.
    apply addPoint_score; assumption.
  - pose proof (onCollideEnd_no_score c g E) as Hn.
    assert (Hnot : ~ scored c g (onCollideEnd c g)).
    { intros Hs. exact (scored_excludes_no_score _ _ _ _ Hk Hr Hs Hn). }
    split; [split; [intros Hs; contradiction |] |].
    { intros [Ha Hv]. apply lt_below in Hv.
      change (Fin 1) with (num 1) in Hv.
      rewrite Ha, Hv in E. discriminate. }
    split; [intros _; exact Hn |].
    split; [intros Hs; contradiction | reflexivity].
Qed.

Lemma onCollideBegin_armed_iff (c : Collision) (g : Game) :
  scorable (onCollideBegin c g) = true <-> below (velocity_y c) 0.
Proof. rewrite onCollideBegin_scorable. apply lt_below. Qed.

Lemma onCollideBegin_unarmed_iff (c : Collision) (g : Game) :
  scorable (onCollideBegin c g) = false <-> ~ below (velocity_y c) 0.
Proof.
  split.
  - intros Hf Hb. apply (onCollideBegin_armed_iff c g) in Hb. congruence.
  - intros Hb. destruct (scorable (onCollideBegin c g)) eqn:E; [|reflexivity].
    exfalso. apply Hb, (onCollideBegin_armed_iff c g), E.
Qed.

(** An entry that does not arm, then an exit: nothing is scored. *)
Lemma unarmed_pair_no_score (c_in c_out : Collision) (g : Game) :
  ~ below (velocity_y c_in) 0 ->
  no_score g (onCollideEnd c_out (onCollideBegin c_in g)).
Proof.
  intros Hb. apply onCollideBegin_unarmed_iff with (g := g) in Hb.
  pose proof (onCollideEnd_no_score c_out (onCollideBegin c_in g)) as Hend.
  rewrite Hb in Hend. specialize (Hend eq_refl).
  destruct Hend as [H1 H2].
  destruct (onCollideBegin_no_score c_in g) as [H3 H4].
  split; congruence.
Qed.

(** C2.  An entry sets the flag to true if the velocity of the entering body
    is strictly negative and to false otherwise, and scores nothing; an entry
    with a velocity that is not negative, followed by any exit, scores
    nothing. *)
Theorem entry_arms_iff_moving_down (c_in c_out : Collision) (g : Game) :
  let g_in := onCollideBegin c_in g in
  (scorable g_in = true <-> below (velocity_y c_in) 0) /\
  (scorable g_in = false <-> ~ below (velocity_y c_in) 0) /\
  no_score g g_in /\
  (~ below (velocity_y c_in) 0 -> no_score g (onCollideEnd c_out g_in)).
Proof.
  intros g_in.
  split; [apply onCollideBegin_armed_iff|].
  split; [apply onCollideBegin_unarmed_iff|].
  split; [apply onCollideBegin_no_score|].
  apply unarmed_pair_no_score.
Qed.

Lemma entry_arms_iff_moving_down_witness :
  no_score initial
    (onCollideEnd {| body := 0%nat; velocity_y := Fin (-1) |}
       (onCollideBegin {| body := 0%nat; velocity_y := Fin 2 |} initial)).
Proof.
  apply (entry_arms_iff_moving_down
           {| body := 0%nat; velocity_y := Fin 2 |}
           {| body := 0%nat; velocity_y := Fin (-1) |} initial).
  simpl. lra.
Defined.

(** C9.  The flag after an entry is the test of that entry's velocity alone:
    two games that differ in everything, the flag included, have the same
    flag after the same entry, and after a run of entries the flag is the
    test of the last one. *)
Theorem last_entry_wins (c : Collision) (cs : list Collision) (g1 g2 : Game) :
  scorable (onCollideBegin c g1) = scorable (onCollideBegin c g2) /\
  scorable (onCollideBegin c (set_scorable true g1))
  = (velocity_y c <? num 0)%js /\
  scorable (entries (cs ++ [c]) g1) = (velocity_y c <? num 0)%js.
Proof.
  split; [|split].
  - rewrite !onCollideBegin_scorable. reflexivity.
  - apply onCollideBegin_scorable.
  - unfold entries. rewrite fold_left_app. simpl.
    apply onCollideBegin_scorable.
Qed.

(** C8.  A NaN velocity is not below any threshold: an entry with it leaves
    the flag false, an exit with it scores nothing even when the flag is
    set, and a pair with NaN on either side scores nothing.  The callbacks
    are total functions: there is no failing case. *)
Theorem NaN_velocity_never_scores (b : uuid) (c : Collision) (g : Game) :
  let nan := {| body := b; velocity_y := NaN |} in
  scorable (onCollideBegin nan g) = false /\
  no_score g (onCollideEnd nan g) /\
  no_score g (onCollideEnd c (onCollideBegin nan g)) /\
  no_score g (onCollideEnd nan (onCollideBegin c g)).
Proof.
  intros nan.
  assert (Hend : forall g0, no_score g0 (onCollideEnd nan g0)).
  { intros g0. apply onCollideEnd_no_score. simpl.
    apply andb_false_r. }
  split; [reflexivity|]. split; [apply Hend|]. split.
  - apply unarmed_pair_no_score. simpl. tauto.
  - destruct (Hend (onCollideBegin c g)) as [H1 H2].
    destruct (onCollideBegin_no_score c g) as [H3 H4].
    split; congruence.
Qed.

(** ** The round clock *)

Section Clock.

(** The prefix [parseInt] reads off a number printed with an exponent. *)
Variable pp : Q -> Z.

(** Once the store says the round is over, a frame changes nothing. *)
Lemma tick_over (t : number) (st : Store) :
  gameOver st = true -> tick pp t st = st.
Proof.
  intros H. unfold tick, useFrame. rewrite H. reflexivity.
Qed.

(** The frame that ends the round only sets the flag. *)
Lemma tick_ends (t : number) (st : Store) :
  gameOver st = false -> (t >? ROUND_DURATION + num 1)%js = true ->
  tick pp t st = setGameOver true st.
Proof.
  intros H Ht. unfold tick, useFrame. rewrite H, Ht. reflexivity.
Qed.

(** Any other frame of a running round writes the time left. *)
Lemma tick_running (t : number) (st : Store) :
  gameOver st = false -> (t >? ROUND_DURATION + num 1)%js = false ->
  tick pp t st = setTimeLeft (ROUND_DURATION - parseInt pp t)%js st.
Proof.
  intros H Ht. unfold tick, useFrame. rewrite H, Ht. reflexivity.
Qed.

Lemma tick_gameOver (t : number) (st : Store) :
  gameOver (tick pp t st) = gameOver st || (t >? ROUND_DURATION + num 1)%js.
Proof.
  destruct (gameOver st) eqn:H.
  - rewrite tick_over by assumption. rewrite H. reflexivity.
  - destruct (t >? ROUND_DURATION + num 1)%js eqn:Ht.
    + rewrite tick_ends by assumption. reflexivity.
    + rewrite tick_running by assumption. simpl. exact H.
Qed.

(** No call of the callback clears the flag of the store, whatever the
    component had read when it rendered. *)
Lemma useFrame_keeps_gameOver (seen : bool) (t : number) (st : Store) :
  gameOver st = true -> gameOver (useFrame pp seen t st) = true.
Proof.
  intros H. unfold useFrame.
  destruct (negb seen && (t >? ROUND_DURATION + num 1)%js); [reflexivity|].
  destruct (negb seen); simpl; exact H.
Qed.

Lemma ticks_app (es1 es2 : list number) (st : Store) :
  ticks pp (es1 ++ es2) st = ticks pp es2 (ticks pp es1 st).
Proof. unfold ticks. apply fold_left_app. Qed.

Lemma ticks_over (es : list number) (st : Store) :
  gameOver st = true -> ticks pp es st = st.
Proof.
  revert st. induction es as [|e es IH]; intros st H; [reflexivity|].
  simpl. rewrite tick_over by assumption. apply IH, H.
Qed.

Lemma ticks_gameOver (es : list number) (st : Store) :
  gameOver (ticks pp es st)
  = gameOver st || existsb (fun t => (t >? ROUND_DURATION + num 1)%js) es.
Proof.
  revert st. induction es as [|e es IH]; intros st; simpl.
  - rewrite orb_false_r. reflexivity.
  - change (gameOver (ticks pp es (tick pp e st)) =
            gameOver st || ((e >? ROUND_DURATION + num 1)%js || existsb (fun t => (t >? ROUND_DURATION + num 1)%js) es)).
    rewrite IH, tick_gameOver, orb_assoc. reflexivity.
Qed.

(** In a run of times that never go back, every time before [t] is at most
    [t]. *)
Lemma nondecreasing_prefix (pre post : list Q) (t : Q) :
  nondecreasing (pre ++ t :: post) -> Forall (fun x => x <= t) pre.
Proof.
  induction pre as [|a pre IH]; intros H; [constructor|].
  simpl in H. destruct (pre ++ t :: post) as [|b rest] eqn:E.
  - destruct pre; discriminate.
  - destruct H as [Hab Hrest]. specialize (IH Hrest).
    constructor; [|exact IH].
    destruct pre as [|a' pre'].
    + simpl in E. injection E as <- _. exact Hab.
    + simpl in E. injection E as <- _.
      inversion IH; subst. lra.
Qed.

Lemma gt_round_end (t : Q) :
  (Fin t >? ROUND_DURATION + num 1)%js = true <-> 11 < t.
Proof. rewrite round_end. unfold gt, num. simpl. apply Qltb_lt. Qed.

Lemma not_gt_round_end (t : Q) :
  (Fin t >? ROUND_DURATION + num 1)%js = false <-> t <= 11.
Proof. rewrite round_end. unfold gt, num. simpl. apply Qltb_ge. Qed.

(** C4.  From a running round, along frames whose elapsed times never go
    back: after the frame at [t] the flag is false when [t <= 11] and true
    when [11 < t], so it is set by the first frame past 11 and by every
    later one; and from a round that is over, any frames at all, in any
    order and with any values, leave the flag true, also when the callback
    still holds the flag of an earlier render. *)
Theorem gameOver_set_past_round_end_and_terminal
        (ts : list Q) (es : list number) (st : Store) :
  (gameOver st = false -> nondecreasing ts ->
   forall (pre post : list Q) (t : Q), ts = pre ++ t :: post ->
     let now := ticks pp (map Fin (pre ++ [t])) st in
     (t <= 11 -> gameOver now = false) /\ (11 < t -> gameOver now = true)) /\
  (gameOver st = true -> gameOver (ticks pp es st) = true) /\
  (gameOver st = true ->
   forall (seen : bool) (e : number), gameOver (useFrame pp seen e st) = true).
Proof.
  split; [|split].
  - intros Hrun Hmono pre post t -> now. unfold now.
    rewrite ticks_gameOver, Hrun, map_app, existsb_app. simpl.
    rewrite orb_false_r. split.
    + intros Ht. apply orb_false_iff. split; [|apply not_gt_round_end, Ht].
      apply nondecreasing_prefix in Hmono.
      induction Hmono as [|a pre Ha _ IH]; [reflexivity|].
      simpl. rewrite IH, orb_false_r. apply not_gt_round_end. lra.
    + intros Ht. apply orb_true_iff. right. apply gt_round_end, Ht.
  - intros Hover. rewrite ticks_over; assumption.
  - intros Hover seen e. apply useFrame_keeps_gameOver, Hover.
Qed.

(** [parseInt] of a time printed in plain decimal notation is its floor. *)
Lemma parseInt_floor (t : Q) :
  t == 0 \/ 1 # 1000000 <= t -> t < inject_Z (2 ^ 53) ->
  parseInt pp (Fin t) = num (Qfloor t).
Proof.
  intros Hlow Hhigh.
  assert (Hpos : 0 <= t) by (destruct Hlow as [H|H]; lra).
  assert (Hplain : plain_decimal t = true).
  { unfold plain_decimal. destruct Hlow as [H|H].
    - apply Qeq_bool_iff in H. rewrite H. reflexivity.
    - apply orb_true_iff. right. apply andb_true_iff. split.
      + apply Qle_bool_iff. rewrite Qabs_pos; assumption.
      + apply Qltb_lt. rewrite Qabs_pos; assumption. }
  unfold parseInt. rewrite Hplain. unfold num. do 2 f_equal.
  destruct t as [n d]. unfold Qtrunc, Qfloor. simpl.
  apply Z.quot_div_nonneg; [|lia].
  unfold Qle in Hpos. simpl in Hpos. lia.
Qed.

Lemma Qfloor_bounds (t : Q) (lo hi : Z) :
  inject_Z lo <= t -> t < inject_Z hi -> (lo <= Qfloor t < hi)%Z.
Proof.
  intros Hlo Hhi. split.
  - rewrite <- (Qfloor_Z lo). apply Qfloor_resp_le, Hlo.
  - rewrite Zlt_Qlt. apply Qle_lt_trans with t; [apply Qfloor_le|exact Hhi].
Qed.

(** C3, as the code has it.  A frame of a running round at an elapsed time
    that is zero or at least 1e-6 and below 11 leaves the time left at
    10 - floor(elapsed), which is max(0, 10 - floor(elapsed)) and is not
    negative; a frame past 11, or any frame once the round is over, leaves
    the time left as it was. *)
Theorem timeLeft_written_before_round_end_else_kept
        (t : Q) (e : number) (st : Store) :
  (gameOver st = false -> t == 0 \/ 1 # 1000000 <= t -> t < 11 ->
   timeLeft (tick pp (Fin t) st) = clamped_timeLeft t /\
   timeLeft (tick pp (Fin t) st) = num (10 - Qfloor t) /\
   (0 <= 10 - Qfloor t)%Z) /\
  (gameOver st = true \/ (e >? ROUND_DURATION + num 1)%js = true ->
   timeLeft (tick pp e st) = timeLeft st).
Proof.
  split.
  - intros Hrun Hlow Hhigh.
    assert (Hfl : (0 <= Qfloor t < 11)%Z).
    { apply Qfloor_bounds; [destruct Hlow as [H|H]|]; unfold inject_Z; lra. }
    assert (Hval : timeLeft (tick pp (Fin t) st) = num (10 - Qfloor t)).
    { rewrite tick_running; [|exact Hrun|apply not_gt_round_end; lra].
      unfold setTimeLeft. cbn [timeLeft]. rewrite parseInt_floor; [|exact Hlow|].
      - apply sub_num. lia.
      - apply Qlt_trans with 11; [exact Hhigh|reflexivity]. }
    split; [|split; [exact Hval|lia]].
    rewrite Hval. unfold clamped_timeLeft. f_equal. lia.
  - intros [Hover|Hend].
    + rewrite tick_over by assumption. reflexivity.
    + destruct (gameOver st) eqn:Hg.
      * rewrite tick_over by assumption. reflexivity.
      * rewrite tick_ends by assumption. reflexivity.
Qed.

(** The trigger callbacks do not touch the clock's part of the store. *)
Lemma onCollideEnd_clock (c : Collision) (g : Game) :
  timeLeft (store (onCollideEnd c g)) = timeLeft (store g) /\
  gameOver (store (onCollideEnd c g)) = gameOver (store g).
Proof.
  unfold onCollideEnd.
  destruct (scorable g && (velocity_y c <? num 1)%js); split; reflexivity.
Qed.

Lemma step_over (e : event) (g : Game) :
  gameOver (store g) = true ->
  timeLeft (store (step pp g e)) = timeLeft (store g) /\
  gameOver (store (step pp g e)) = true.
Proof.
  intros H. destruct e as [t|c|c]; unfold step.
  - unfold with_store. cbn [store].
    rewrite tick_over by assumption. split; [reflexivity|exact H].
  - destruct (onCollideBegin_no_score c g) as [-> _].
    split; [reflexivity|exact H].
  - destruct (onCollideEnd_clock c g) as [-> ->].
    split; [reflexivity|exact H].
Qed.

Lemma run_over (es : list event) (g : Game) :
  gameOver (store g) = true ->
  timeLeft (store (run pp es g)) = timeLeft (store g) /\
  gameOver (store (run pp es g)) = true.
Proof.
  revert g. induction es as [|e es IH]; intros g H.
  - split; [reflexivity|exact H].
  - simpl. destruct (step_over e g H) as [Ht Hg].
    destruct (IH _ Hg) as [IHt IHg]. split; congruence.
Qed.

(** C10.  When a frame leaves the round over, every later frame, with any
    elapsed time, leaves the time left where that frame left it; the frame
    that ended the round did not write it either, so the value is the one of
    the last frame of the running round.  Trigger callbacks between the
    frames change nothing of this, and a callback run past the end of the
    round writes no time whichever flag it had read. *)
Theorem timeLeft_frozen_once_gameOver
        (e : number) (ts : list number) (es : list event)
        (st : Store) (g : Game) :
  (gameOver (tick pp e st) = true ->
   timeLeft (ticks pp ts (tick pp e st)) = timeLeft (tick pp e st) /\
   (gameOver st = false -> timeLeft (tick pp e st) = timeLeft st)) /\
  (gameOver (store g) = true ->
   timeLeft (store (run pp es g)) = timeLeft (store g)) /\
  ((e >? ROUND_DURATION + num 1)%js = true ->
   forall seen : bool, timeLeft (useFrame pp seen e st) = timeLeft st).
Proof.
  split; [|split].
  - intros Hover. split.
    + rewrite ticks_over by assumption. reflexivity.
    + intros Hrun. rewrite tick_gameOver, Hrun in Hover. simpl in Hover.
      rewrite tick_ends by assumption. reflexivity.
  - intros Hover. apply run_over, Hover.
  - intros Hend seen. unfold useFrame. rewrite Hend.
    destruct seen; reflexivity.
Qed.

(** *** Histories of the trigger *)

Lemma run_snoc (es : list event) (e : event) (g : Game) :
  run pp (es ++ [e]) g = step pp (run pp es g) e.
Proof. unfold run. rewrite fold_left_app. reflexivity. Qed.

(** What the last callback of a history decides about [armed_history]. *)
Lemma armed_history_snoc (es : list event) (e : event) :
  armed_history (es ++ [e]) <->
  match e with
  | Frame _ => armed_history es
  | CollideBegin c => (velocity_y c <? num 0)%js = true
  | CollideEnd _ => False
  end.
Proof.
  split.
  - intros (pre & c & post & Heq & Hv & Hf).
    destruct post as [|x0 post0].
    + apply app_inj_tail in Heq. destruct Heq as [_ ->]. exact Hv.
    + destruct (@exists_last _ (x0 :: post0)) as [post' [x Hpost]];
        [discriminate|].
      rewrite Hpost in Heq, Hf.
      rewrite app_comm_cons, app_assoc in Heq.
      apply app_inj_tail in Heq. destruct Heq as [-> ->].
      apply Forall_app in Hf. destruct Hf as [Hf' Hx].
      inversion Hx as [|? ? Hx' _]; subst.
      destruct x as [t|c'|c']; try contradiction.
      exists pre, c, post'. repeat split; assumption.
  - destruct e as [t|c|c].
    + intros (pre & c & post & -> & Hv & Hf).
      exists pre, c, (post ++ [Frame t]). split; [|split].
      * rewrite <- app_assoc. reflexivity.
      * exact Hv.
      * apply Forall_app. split; [exact Hf|]. constructor; [exact I|constructor].
    + intros Hv. exists es, c, []. repeat split; [exact Hv|constructor].
    + contradiction.
Qed.

(** The flag says exactly whether the history leaves the region armed. *)
Lemma scorable_run (es : list event) :
  scorable (run pp es initial) = true <-> armed_history es.
Proof.
  induction es as [|e es IH] using rev_ind.
  - split; [discriminate|].
    intros (pre & c & post & Heq & _). destruct pre; discriminate.
  - rewrite run_snoc, armed_history_snoc. destruct e as [t|c|c]; simpl.
    + exact IH.
    + rewrite onCollideBegin_scorable. reflexivity.
    + split; [discriminate|contradiction].
Qed.

(** C7.  An exit that meets the flag false scores nothing and changes
    nothing but the flag, which stays false.  The flag is false whenever the
    history of the game does not leave the region armed (no entry at all,
    or the last trigger callback was an exit or an entry that did not arm):
    the exit after such a history scores nothing.  The callback is a total
    function, so there is no failing case. *)
Theorem unmatched_exit_scores_nothing
        (c : Collision) (g : Game) (es : list event) :
  (scorable g = false ->
   no_score g (onCollideEnd c g) /\ scorable (onCollideEnd c g) = false) /\
  (~ armed_history es ->
   no_score (run pp es initial) (onCollideEnd c (run pp es initial))) /\
  no_score initial (onCollideEnd c initial).
Proof.
  assert (Hflag : forall g0, scorable g0 = false ->
                             no_score g0 (onCollideEnd c g0)).
  { intros g0 H0. apply onCollideEnd_no_score. rewrite H0. reflexivity. }
  split; [|split].
  - intros H. split; [apply Hflag, H|reflexivity].
  - intros Hna. apply Hflag.
    destruct (scorable (run pp es initial)) eqn:E; [|reflexivity].
    exfalso. apply Hna, scorable_run, E.
  - apply Hflag. reflexivity.
Qed.

End Clock.

(** ** The round clock and the trigger together *)

(** C5, as the code has it.  An exit handled while the round is over is
    handled like any other: a point is added when the flag is set and the
    velocity is below 1, the store is left alone otherwise; [gameOver] is
    neither read nor changed. *)
Theorem exit_while_gameOver_scores_as_before (c : Collision) (g : Game) :
  gameOver (store g) = true ->
  let g' := onCollideEnd c g in
  (scorable g = true /\ below (velocity_y c) 1 ->
   store g' = addPoint (store g)) /\
  (scorable g = false \/ ~ below (velocity_y c) 1 -> store g' = store g) /\
  gameOver (store g') = true.
Proof.
  intros Hover g'. split; [|split].
  - intros [Ha Hv]. apply lt_below in Hv. change (Fin 1) with (num 1) in Hv.
    apply onCollideEnd_scored. rewrite Ha, Hv. reflexivity.
  - intros Hno. apply onCollideEnd_no_score.
    destruct Hno as [Ha|Hv]; [rewrite Ha; reflexivity|].
    apply andb_false_iff. right.
    destruct (velocity_y c <? num 1)%js eqn:E; [|reflexivity].
    exfalso. apply Hv, lt_below, E.
  - unfold g'. destruct (onCollideEnd_clock c g) as [_ ->]. exact Hover.
Qed.

(** ** Concrete runs *)

(** The frame at 12 s of a fresh round ends it; a ball that then drops
    through the hoop still scores. *)
Lemma exit_after_round_end_scores :
  let over := with_store (setGameOver true) initial in
  let c_in := {| body := 0%nat; velocity_y := Fin (-3) |} in
  let c_out := {| body := 0%nat; velocity_y := Fin (1 # 2) |} in
  (forall pp, step pp initial (Frame (Fin 12)) = over) /\
  gameOver (store (onCollideBegin c_in over)) = true /\
  score (store (onCollideBegin c_in over)) = num 0 /\
  score (store (onCollideEnd c_out (onCollideBegin c_in over))) = num 1.
Proof.
  repeat split.
Qed.

Lemma exit_while_gameOver_witness :
  score (store (onCollideEnd {| body := 0%nat; velocity_y := Fin (1 # 2) |}
                  (onCollideBegin {| body := 0%nat; velocity_y := Fin (-3) |}
                     (with_store (setGameOver true) initial))))
  = num 1.
Proof.
  rewrite (proj1 (exit_while_gameOver_scores_as_before
                    {| body := 0%nat; velocity_y := Fin (1 # 2) |}
                    (onCollideBegin {| body := 0%nat; velocity_y := Fin (-3) |}
                       (with_store (setGameOver true) initial))
                    eq_refl)).
  - reflexivity.
  - split; [reflexivity|simpl; lra].
Defined.

(** A first frame at 12 s leaves the time left at 10, where the clamped
    formula gives 0; a frame at exactly 11 s, which is not past the end of
    the round, writes -1. *)
Lemma timeLeft_not_clamped :
  (forall pp,
      timeLeft (tick pp (Fin 12) useStore) = num 10 /\
      timeLeft (tick pp (Fin 12) useStore) <> clamped_timeLeft 12) /\
  (forall pp,
      timeLeft (tick pp (Fin 11) useStore) = num (-1) /\
      timeLeft (tick pp (Fin 11) useStore) <> clamped_timeLeft 11).
Proof.
  split; intros pp; (split; [reflexivity|]); vm_compute; discriminate.
Qed.

Lemma timeLeft_written_witness :
  timeLeft (tick (fun _ => 0%Z) (Fin (37 # 10)) useStore)
  = clamped_timeLeft (37 # 10) /\
  timeLeft (tick (fun _ => 0%Z) (Fin 12) useStore) = timeLeft useStore.
Proof.
  split.
  - apply (timeLeft_written_before_round_end_else_kept
             (fun _ => 0%Z) (37 # 10) (Fin 12) useStore);
      [reflexivity|right; lra|lra].
  - apply (timeLeft_written_before_round_end_else_kept
             (fun _ => 0%Z) (37 # 10) (Fin 12) useStore).
    right. reflexivity.
Defined.

Lemma gameOver_set_past_round_end_witness :
  gameOver (ticks (fun _ => 0%Z) (map Fin ([3; 21 # 2] ++ [23 # 2])) useStore)
  = true /\
  gameOver (ticks (fun _ => 0%Z) (map Fin ([3] ++ [21 # 2])) useStore)
  = false.
Proof.
  assert (Hmono : nondecreasing [3; 21 # 2; 23 # 2; 12]).
  { simpl. repeat split; lra. }
  split.
  - apply (proj1 (gameOver_set_past_round_end_and_terminal
                    (fun _ => 0%Z) [3; 21 # 2; 23 # 2; 12] [] useStore)
                 eq_refl Hmono [3; 21 # 2] [12] (23 # 2) eq_refl).
    lra.
  - apply (proj1 (gameOver_set_past_round_end_and_terminal
                    (fun _ => 0%Z) [3; 21 # 2; 23 # 2; 12] [] useStore)
                 eq_refl Hmono [3] [23 # 2; 12] (21 # 2) eq_refl).
    lra.
Defined.

Lemma timeLeft_frozen_witness :
  let over := tick (fun _ => 0%Z) (Fin (23 # 2))
                (tick (fun _ => 0%Z) (Fin (21 # 2)) useStore) in
  timeLeft (ticks (fun _ => 0%Z) [Fin 12; Fin 3; NaN] over) = timeLeft over /\
  timeLeft over = num 0.
Proof.
  intros over. split; [|reflexivity].
  exact (proj1 (proj1 (timeLeft_frozen_once_gameOver
                         (fun _ => 0%Z) (Fin (23 # 2)) [Fin 12; Fin 3; NaN] []
                         (tick (fun _ => 0%Z) (Fin (21 # 2)) useStore) initial)
                      eq_refl)).
Defined.

Lemma unmatched_exit_witness :
  let es := [CollideBegin {| body := 0%nat; velocity_y := Fin (-3) |};
             CollideEnd {| body := 0%nat; velocity_y := Fin 4 |};
             Frame (Fin 1)] in
  let c := {| body := 1%nat; velocity_y := Fin (-2) |} in
  no_score (run (fun _ => 0%Z) es initial)
           (onCollideEnd c (run (fun _ => 0%Z) es initial)).
Proof.
  intros es c.
  apply (unmatched_exit_scores_nothing (fun _ => 0%Z) c initial es).
  intros Ha. apply (scorable_run (fun _ => 0%Z)) in Ha.
  discriminate Ha.
Defined.

(** The scenarios of the specification. *)

Example basket_made :
  score (store (run (fun _ => 0%Z)
                  [CollideBegin {| body := 0%nat; velocity_y := Fin (-3) |};
                   CollideEnd {| body := 0%nat; velocity_y := Fin (1 # 2) |}]
                  initial)) = num 1.
Proof. reflexivity. Qed.

Example entry_from_below :
  score (store (run (fun _ => 0%Z)
                  [CollideBegin {| body := 0%nat; velocity_y := Fin 2 |};
                   CollideEnd {| body := 0%nat; velocity_y := Fin (-1) |}]
                  initial)) = num 0.
Proof. reflexivity. Qed.

Example rebound_rejected :
  score (store (run (fun _ => 0%Z)
                  [CollideBegin {| body := 0%nat; velocity_y := Fin (-3) |};
                   CollideEnd {| body := 0%nat; velocity_y := Fin 4 |}]
                  initial)) = num 0.
Proof. reflexivity. Qed.

Example clock_at_10_9_and_11_1 :
  tick (fun _ => 0%Z) (Fin (109 # 10)) useStore
  = {| score := num 0; timeLeft := num 0; gameOver := false |} /\
  gameOver (tick (fun _ => 0%Z) (Fin (111 # 10)) useStore) = true.
Proof. split; reflexivity. Qed.

(** ** Histories of the whole game *)

Section Histories.

Variable pp : Q -> Z.

Lemma run_app (es1 es2 : list event) (g : Game) :
  run pp (es1 ++ es2) g = run pp es2 (run pp es1 g).
Proof. unfold run. apply fold_left_app. Qed.

(** A frame writes neither the score nor anything outside the store. *)
Lemma tick_score (t : number) (st : Store) : score (tick pp t st) = score st.
Proof.
  unfold tick, useFrame.
  destruct (negb (gameOver st) && (t >? ROUND_DURATION + num 1)%js);
    [reflexivity|].
  destruct (negb (gameOver st)); reflexivity.
Qed.

Lemma tick_addPoint (t : number) (st : Store) :
  tick pp t (addPoint st) = addPoint (tick pp t st).
Proof.
  unfold tick, useFrame. cbn [gameOver addPoint].
  destruct (negb (gameOver st) && (t >? ROUND_DURATION + num 1)%js);
    [reflexivity|].
  destruct (negb (gameOver st)); reflexivity.
Qed.

(** What one callback does to a score that is a count: a scoring exit adds
    one, or nothing once the count has reached 2^53; any other callback
    leaves it. *)
Lemma step_score (e : event) (g : Game) (k : nat) :
  score (store g) = num (Z.of_nat k) -> (Z.of_nat k <= 2 ^ 53)%Z ->
  exists k' : nat,
    score (store (step pp g e)) = num (Z.of_nat k') /\
    (Z.of_nat k' <= 2 ^ 53)%Z /\
    ((scorable g && is_slow_exit e = true /\
      (k <= k' <= S k)%nat /\ (1 <= k')%nat) \/
     (scorable g && is_slow_exit e = false /\ k' = k)).
Proof.
  intros Hk Hmax.
  assert (Hkeep : forall g', store g' = store g ->
            scorable g && is_slow_exit e = false ->
            exists k' : nat,
              score (store g') = num (Z.of_nat k') /\
              (Z.of_nat k' <= 2 ^ 53)%Z /\
              ((scorable g && is_slow_exit e = true /\
                (k <= k' <= S k)%nat /\ (1 <= k')%nat) \/
               (scorable g && is_slow_exit e = false /\ k' = k))).
  { intros g' Hst Hc. exists k. rewrite Hst.
    split; [exact Hk|]. split; [exact Hmax|]. right. split; [exact Hc|reflexivity]. }
  destruct e as [t|c|c]; unfold step.
  - exists k. unfold with_store. cbn [store]. rewrite tick_score.
    split; [exact Hk|]. split; [exact Hmax|].
    right. split; [apply andb_false_r|reflexivity].
  - apply Hkeep; [|apply andb_false_r].
    apply (onCollideBegin_no_score c g).
  - cbn [is_slow_exit] in *.
    destruct (scorable g && (velocity_y c <? num 1)%js) eqn:E.
    + destruct (onCollideEnd_scored c g E) as [Hst _]. rewrite Hst.
      destruct (Z.eq_dec (Z.of_nat k) (2 ^ 53)) as [Htop|Hbelow].
      * exists k. rewrite Htop in Hk.
        rewrite (addPoint_score_top _ Hk), Htop.
        split; [reflexivity|]. split; [lia|].
        left. split; [reflexivity|]. lia.
      * exists (S k).
        rewrite (addPoint_score _ _ Hk) by lia.
        split; [f_equal; lia|]. split; [lia|].
        left. split; [reflexivity|]. lia.
    + apply Hkeep; [|reflexivity].
      apply (onCollideEnd_no_score c g E).
Qed.

Lemma step_scorable (e : event) (g : Game) :
  scorable (step pp g e)
  = match e with
    | Frame _ => scorable g
    | CollideBegin c => (velocity_y c <? num 0)%js
    | CollideEnd _ => false
    end.
Proof.
  destruct e as [t|c|c]; [reflexivity| |reflexivity].
  apply onCollideBegin_scorable.
Qed.

Lemma count_snoc (f : event -> bool) (es : list event) (e : event) :
  length (filter f (es ++ [e]))
  = (length (filter f es) + (if f e then 1 else 0))%nat.
Proof.
  rewrite filter_app, length_app. simpl. destruct (f e); reflexivity.
Qed.

(** The score along a history: a count up to 2^53, with its two bounds. *)
Lemma score_run_invariant (es : list event) :
  exists k : nat,
    score (store (run pp es initial)) = num (Z.of_nat k) /\
    (Z.of_nat k <= 2 ^ 53)%Z /\
    (k + (if scorable (run pp es initial) then 1 else 0)
     <= length (filter is_armed_entry es))%nat /\
    (k <= length (filter is_slow_exit es))%nat.
Proof.
  induction es as [|e es IH] using rev_ind.
  - exists 0%nat. split; [reflexivity|]. split; [lia|]. simpl. lia.
  - destruct IH as (k & Hk & Hmax & Ha & Hx).
    rewrite run_snoc, !count_snoc, step_scorable.
    destruct (step_score e (run pp es initial) k Hk Hmax)
      as (k' & Hk' & Hmax' & [(Hc & Hle & _)|(Hc & Hsame)]);
      exists k'; (split; [exact Hk'|]); (split; [exact Hmax'|]).
    + apply andb_true_iff in Hc. destruct Hc as [Hf Hslow].
      rewrite Hf in Ha. rewrite Hslow.
      destruct e as [t|c|c]; try discriminate. simpl. lia.
    + subst k'. destruct e as [t|c|c]; simpl in *.
      * lia.
      * destruct (velocity_y c <? num 0)%js;
          destruct (scorable (run pp es initial)); lia.
      * destruct (scorable (run pp es initial));
          destruct (velocity_y c <? num 1)%js; simpl in *;
          try discriminate; lia.
Qed.

(** X1.  After any history the score is a count, it is at most the number of
    entries that armed the region (one less while the region is armed: that
    entry has not paid out yet) and at most the number of exits slower than
    1: no entry is paid twice and no point comes without an exit. *)
Theorem score_bounded_by_armed_entries_and_slow_exits (es : list event) :
  exists k : nat,
    score (store (run pp es initial)) = num (Z.of_nat k) /\
    (k + (if scorable (run pp es initial) then 1 else 0)
     <= length (filter is_armed_entry es))%nat /\
    (k <= length (filter is_slow_exit es))%nat.
Proof.
  destruct (score_run_invariant es) as (k & Hk & _ & Ha & Hx).
  exists k. split; [exact Hk|]. split; assumption.
Qed.

Lemma run_score_grows (es : list event) (g : Game) (k : nat) :
  score (store g) = num (Z.of_nat k) -> (Z.of_nat k <= 2 ^ 53)%Z ->
  exists k' : nat,
    score (store (run pp es g)) = num (Z.of_nat k') /\
    (Z.of_nat k' <= 2 ^ 53)%Z /\ (k <= k')%nat.
Proof.
  revert g k. induction es as [|e es IH]; intros g k Hk Hmax.
  - exists k. split; [exact Hk|]. split; [exact Hmax|lia].
  - simpl.
    destruct (step_score e g k Hk Hmax)
      as (k1 & Hk1 & Hmax1 & [(_ & Hle & _)|(_ & Hle)]);
      destruct (IH _ _ Hk1 Hmax1) as (k' & Hk' & Hmax' & Hle');
      exists k'; (split; [exact Hk'|]); (split; [exact Hmax'|lia]).
Qed.

(** X2.  The score never goes down and is never reset: whatever happens
    after a history, the score is at least what it was. *)
Theorem score_never_decreases (es es' : list event) :
  exists k k' : nat,
    score (store (run pp es initial)) = num (Z.of_nat k) /\
    score (store (run pp (es ++ es') initial)) = num (Z.of_nat k') /\
    (k <= k')%nat.
Proof.
  destruct (score_run_invariant es) as (k & Hk & Hmax & _).
  destruct (run_score_grows es' (run pp es initial) k Hk Hmax)
    as (k' & Hk' & _ & Hle).
  exists k, k'. rewrite run_app. repeat split; assumption.
Qed.

Lemma step_gameOver (e : event) (g : Game) :
  gameOver (store (step pp g e)) = gameOver (store g) || is_frame_past_end e.
Proof.
  destruct e as [t|c|c]; unfold step, is_frame_past_end.
  - unfold with_store. cbn [store]. apply tick_gameOver.
  - destruct (onCollideBegin_no_score c g) as [-> _].
    rewrite orb_false_r. reflexivity.
  - destruct (onCollideEnd_clock c g) as [_ ->].
    rewrite orb_false_r. reflexivity.
Qed.

(** X3.  The round is over after a history exactly when one of its frames
    came with an elapsed time past 11: trigger callbacks neither end the
    round nor reopen it, and no later frame reopens it. *)
Theorem gameOver_iff_some_frame_past_end (es : list event) :
  gameOver (store (run pp es initial)) = existsb is_frame_past_end es.
Proof.
  induction es as [|e es IH] using rev_ind; [reflexivity|].
  rewrite run_snoc, step_gameOver, IH, existsb_app. simpl.
  rewrite orb_false_r. reflexivity.
Qed.

(** X4.  A frame and a trigger callback do not see each other: in either
    order they leave the same game. *)
Theorem frame_commutes_with_trigger (t : number) (c : Collision) (g : Game) :
  step pp (step pp g (Frame t)) (CollideBegin c)
  = step pp (step pp g (CollideBegin c)) (Frame t) /\
  step pp (step pp g (Frame t)) (CollideEnd c)
  = step pp (step pp g (CollideEnd c)) (Frame t).
Proof.
  split; unfold step.
  - unfold onCollideBegin.
    destruct (velocity_y c <? num 0)%js; reflexivity.
  - unfold onCollideEnd, with_store. cbn [scorable store].
    destruct (scorable g && (velocity_y c <? num 1)%js); [|reflexivity].
    unfold score_event, setHex, set_scorable, with_store. cbn.
    rewrite tick_addPoint. reflexivity.
Qed.

(** C1, as the code has it.  An exit emits the score event (one [addPoint],
    the exiting body recoloured) if and only if the flag of the trigger is
    set when the exit is handled and the velocity at the exit is strictly
    below 1; otherwise nothing is scored; the event raises a score below
    2^53 by exactly one; and the flag is false after the exit in either
    case.  The flag is the trigger's, not a body's: for an entry followed at
    once by the exit it is set exactly when that entry came with a negative
    velocity, and after any history exactly when the last trigger callback
    was such an entry, of whichever body. *)
Theorem exit_scores_iff_flag_set_and_below_one
        (c_in c_out : Collision) (g : Game) (k : Z) (es : list event) :
  (score (store g) = num k -> (0 <= k < 2 ^ 53)%Z ->
   let g_out := onCollideEnd c_out g in
   (scored c_out g g_out <->
    scorable g = true /\ below (velocity_y c_out) 1) /\
   (~ scored c_out g g_out -> no_score g g_out) /\
   (scored c_out g g_out -> score (store g_out) = num (k + 1)) /\
   scorable g_out = false) /\
  (score (store g) = num k -> (0 <= k < 2 ^ 53)%Z ->
   let g_in := onCollideBegin c_in g in
   scored c_out g_in (onCollideEnd c_out g_in) <->
   below (velocity_y c_in) 0 /\ below (velocity_y c_out) 1) /\
  ((Z.of_nat (length es) < 2 ^ 53)%Z ->
   let g_es := run pp es initial in
   scored c_out g_es (onCollideEnd c_out g_es) <->
   armed_history es /\ below (velocity_y c_out) 1).
Proof.
  split; [|split].
  - intros Hk Hr. apply onCollideEnd_spec with (k := k); assumption.
  - intros Hk Hr g_in.
    destruct (onCollideBegin_no_score c_in g) as [Hst _].
    destruct (onCollideEnd_spec c_out g_in k) as [Hiff _];
      [unfold g_in; rewrite Hst; exact Hk|exact Hr|].
    rewrite Hiff. unfold g_in. rewrite onCollideBegin_armed_iff. reflexivity.
  - intros Hlen g_es.
    destruct (score_run_invariant es) as (n & Hn & _ & _ & Hx).
    pose proof (filter_length_le is_slow_exit es) as Hf.
    destruct (onCollideEnd_spec c_out g_es (Z.of_nat n)) as [Hiff _];
      [exact Hn|lia|].
    rewrite Hiff. unfold g_es. rewrite scorable_run. reflexivity.
Qed.

End Histories.

(** The made basket of the specification: in at -3, out at 0.5. *)
Lemma exit_scores_witness :
  let c_in := {| body := 0%nat; velocity_y := Fin (-3) |} in
  let c_out := {| body := 0%nat; velocity_y := Fin (1 # 2) |} in
  scored c_out (onCollideBegin c_in initial)
         (onCollideEnd c_out (onCollideBegin c_in initial)) /\
  scored c_out (run (fun _ => 0%Z) [Frame (Fin 1); CollideBegin c_in] initial)
         (onCollideEnd c_out
            (run (fun _ => 0%Z) [Frame (Fin 1); CollideBegin c_in] initial)).
Proof.
  intros c_in c_out. split.
  - apply (proj1 (proj2 (exit_scores_iff_flag_set_and_below_one
                           (fun _ => 0%Z) c_in c_out initial 0 [])
                        ) eq_refl).
    + lia.
    + split; simpl; lra.
  - apply (proj2 (proj2 (exit_scores_iff_flag_set_and_below_one
                           (fun _ => 0%Z) c_in c_out initial 0
                           [Frame (Fin 1); CollideBegin c_in]))).
    + simpl. lia.
    + split; [|simpl; lra].
      apply (scorable_run (fun _ => 0%Z)). reflexivity.
Defined.

(** Two balls in the trigger at once.  Both enter moving down and both
    leave moving down: the exit of the first takes the point, the exit of
    the second, armed at its entry and slower than 1, scores nothing.  And a
    ball that entered moving up scores at its exit when another ball has
    entered moving down in between. *)
Lemma flag_shared_between_balls :
  let a_in := {| body := 1%nat; velocity_y := Fin (-3) |} in
  let b_in := {| body := 2%nat; velocity_y := Fin (-3) |} in
  let a_out := {| body := 1%nat; velocity_y := Fin (-5) |} in
  let b_out := {| body := 2%nat; velocity_y := Fin (-5) |} in
  let b_up := {| body := 2%nat; velocity_y := Fin 2 |} in
  let b_slow := {| body := 2%nat; velocity_y := Fin (-1) |} in
  let before_b :=
    onCollideEnd a_out (onCollideBegin b_in (onCollideBegin a_in initial)) in
  let unarmed_b := onCollideBegin a_in (onCollideBegin b_up initial) in
  (scorable (onCollideBegin b_in (onCollideBegin a_in initial)) = true /\
   no_score before_b (onCollideEnd b_out before_b) /\
   score (store (onCollideEnd b_out before_b)) = num 1 /\
   color (onCollideEnd b_out before_b) 2%nat = COLORS_ball) /\
  (scorable (onCollideBegin b_up initial) = false /\
   scored b_slow unarmed_b (onCollideEnd b_slow unarmed_b) /\
   score (store (onCollideEnd b_slow unarmed_b)) = num 1 /\
   color (onCollideEnd b_slow unarmed_b) 2%nat = 0xc698d%Z).
Proof.
  cbv zeta. split.
  - split; [reflexivity|]. split; [split; reflexivity|].
    split; reflexivity.
  - split; [reflexivity|]. split; [split; [reflexivity|intros b; reflexivity]|].
    split; reflexivity.
Qed.

(** ** The colour of the balls *)

Section Colours.

Variable pp : Q -> Z.

(** A callback leaves the colour of a ball alone, unless it is the exit of
    that very ball and scores. *)
Lemma step_color (e : event) (g : Game) (b : uuid) :
  color (step pp g e) b = color g b \/
  (color (step pp g e) b = 0xc698d%Z /\
   exists c, e = CollideEnd c /\ body c = b /\
             scorable g && (velocity_y c <? num 1)%js = true).
Proof.
  destruct e as [t|c|c]; unfold step.
  - left. reflexivity.
  - left. destruct (onCollideBegin_no_score c g) as [_ ->]. reflexivity.
  - destruct (scorable g && (velocity_y c <? num 1)%js) eqn:E.
    + destruct (onCollideEnd_scored c g E) as [_ Hc]. rewrite Hc.
      destruct (Nat.eqb b (body c)) eqn:Eb; [|left; reflexivity].
      right. split; [reflexivity|].
      exists c. apply Nat.eqb_eq in Eb. repeat split; auto.
    + left. destruct (onCollideEnd_no_score c g E) as [_ ->]. reflexivity.
Qed.

Lemma step_keeps_scored (e : event) (g : Game) (b : uuid) :
  color g b = 0xc698d%Z -> color (step pp g e) b = 0xc698d%Z.
Proof.
  intros H. destruct (step_color e g b) as [->|[-> _]]; [exact H|reflexivity].
Qed.

Lemma run_keeps_scored (es : list event) (g : Game) (b : uuid) :
  color g b = 0xc698d%Z -> color (run pp es g) b = 0xc698d%Z.
Proof.
  revert g. induction es as [|e es IH]; intros g H; [exact H|].
  simpl. apply IH, step_keeps_scored, H.
Qed.

Lemma scored_color_has_exit (es : list event) (b : uuid) :
  exists k : nat,
    score (store (run pp es initial)) = num (Z.of_nat k) /\
    (Z.of_nat k <= 2 ^ 53)%Z /\
    (color (run pp es initial) b = 0xc698d%Z ->
     (1 <= k)%nat /\
     exists c, In (CollideEnd c) es /\ body c = b /\ below (velocity_y c) 1).
Proof.
  induction es as [|e es IH] using rev_ind.
  - exists 0%nat. split; [reflexivity|]. split; [lia|]. simpl. discriminate.
  - destruct IH as (k & Hk & Hmax & Hcol). rewrite run_snoc.
    assert (Hold : color (run pp es initial) b = 0xc698d%Z ->
                   exists c, In (CollideEnd c) (es ++ [e]) /\ body c = b /\
                             below (velocity_y c) 1).
    { intros H. destruct (Hcol H) as (_ & c & Hin & Hb & Hv).
      exists c. split; [apply in_or_app; left; exact Hin|auto]. }
    destruct (step_score pp e (run pp es initial) k Hk Hmax)
      as (k' & Hk' & Hmax' & [(Hc & Hle & Hpos)|(Hc & Hsame)]);
      exists k'; (split; [exact Hk'|]); (split; [exact Hmax'|]); intros H.
    + split; [exact Hpos|].
      destruct (step_color e (run pp es initial) b) as [Hsame|[_ Hnew]].
      * apply Hold. rewrite <- Hsame. exact H.
      * destruct Hnew as (c & -> & Hb & Hq). exists c.
        split; [apply in_or_app; right; left; reflexivity|].
        split; [exact Hb|].
        apply andb_true_iff in Hq. destruct Hq as [_ Hq].
        apply lt_below. exact Hq.
    + subst k'.
      destruct (step_color e (run pp es initial) b) as [Hsame|[_ Hnew]].
      * rewrite Hsame in H. split; [apply Hcol, H|apply Hold, H].
      * destruct Hnew as (c & -> & _ & Hq). simpl in Hc. congruence.
Qed.

(** X5.  Along any history a ball has the colour it was made with or the
    colour of a scored ball; it has the latter only if an exit of that ball
    slower than 1 is in the history and at least one point was counted; and
    once it has it, nothing that follows takes it away. *)
Theorem recoloured_ball_has_scored (es es' : list event) (b : uuid) :
  (color (run pp es initial) b = COLORS_ball \/
   color (run pp es initial) b = 0xc698d%Z) /\
  (color (run pp es initial) b = 0xc698d%Z ->
   (exists c, In (CollideEnd c) es /\ body c = b /\ below (velocity_y c) 1) /\
   (exists k : nat, score (store (run pp es initial)) = num (Z.of_nat (S k))) /\
   color (run pp (es ++ es') initial) b = 0xc698d%Z).
Proof.
  split.
  - induction es as [|e es IH] using rev_ind; [left; reflexivity|].
    rewrite run_snoc.
    destruct (step_color e (run pp es initial) b) as [->|[-> _]];
      [exact IH|right; reflexivity].
  - intros H. destruct (scored_color_has_exit es b) as (k & Hk & _ & Hcol).
    destruct (Hcol H) as (Hpos & Hex). split; [exact Hex|]. split.
    + destruct k as [|k]; [lia|]. exists k. exact Hk.
    + rewrite run_app. apply run_keeps_scored, H.
Qed.

End Colours.

Lemma recoloured_ball_witness :
  let es := [CollideBegin {| body := 7%nat; velocity_y := Fin (-3) |};
             CollideEnd {| body := 7%nat; velocity_y := Fin (1 # 2) |}] in
  color (run (fun _ => 0%Z)
           (es ++ [Frame (Fin 12);
                   CollideBegin {| body := 7%nat; velocity_y := Fin 2 |};
                   CollideEnd {| body := 7%nat; velocity_y := Fin 5 |}])
           initial) 7%nat
  = 0xc698d%Z.
Proof.
  intros es.
  apply (recoloured_ball_has_scored (fun _ => 0%Z) es _ 7%nat).
  reflexivity.
Defined.

(** ** One flag for all the balls *)

(** X6.  The flag belongs to the trigger, not to a ball.  When ball [a]
    arms the region and another ball [b] leaves first, slower than 1, the
    point is counted at the exit of [b], [b] is recoloured, and the exit
    that follows, of [a] or of any ball, scores nothing: [a] keeps its
    colour. *)
Theorem armed_pass_is_taken_by_the_first_exit
        (a_in b_out a_out : Collision) (g : Game) :
  below (velocity_y a_in) 0 ->
  below (velocity_y b_out) 1 ->
  body b_out <> body a_in ->
  let g1 := onCollideEnd b_out (onCollideBegin a_in g) in
  let g2 := onCollideEnd a_out g1 in
  scored b_out g g1 /\
  no_score g1 g2 /\
  store g2 = addPoint (store g) /\
  color g2 (body a_in) = color g (body a_in) /\
  color g2 (body b_out) = 0xc698d%Z.
Proof.
  intros Ha Hb Hne g1 g2.
  assert (Hs : scored b_out g g1).
  { unfold g1. destruct (onCollideBegin_no_score a_in g) as [Hst Hcol].
    destruct (onCollideEnd_scored b_out (onCollideBegin a_in g)) as [H1 H2].
    - apply andb_true_iff. split.
      + apply onCollideBegin_armed_iff, Ha.
      + apply lt_below in Hb. exact Hb.
    - split; [rewrite H1, Hst; reflexivity|].
      intros b. rewrite H2, Hcol. reflexivity. }
  assert (Hn : no_score g1 g2).
  { unfold g2. apply onCollideEnd_no_score. reflexivity. }
  destruct Hs as [Hs1 Hs2]. destruct Hn as [Hn1 Hn2].
  split; [split; assumption|]. split; [split; assumption|].
  split; [congruence|]. rewrite Hn2, !Hs2. split.
  - destruct (Nat.eqb (body a_in) (body b_out)) eqn:E; [|reflexivity].
    apply Nat.eqb_eq in E. congruence.
  - rewrite Nat.eqb_refl. reflexivity.
Qed.

Lemma armed_pass_witness :
  let a_in := {| body := 1%nat; velocity_y := Fin (-3) |} in
  let b_out := {| body := 2%nat; velocity_y := Fin (-4) |} in
  let a_out := {| body := 1%nat; velocity_y := Fin (-5) |} in
  store (onCollideEnd a_out (onCollideEnd b_out (onCollideBegin a_in initial)))
  = addPoint (store initial) /\
  color (onCollideEnd a_out (onCollideEnd b_out (onCollideBegin a_in initial)))
        1%nat = COLORS_ball.
Proof.
  intros a_in b_out a_out.
  destruct (armed_pass_is_taken_by_the_first_exit a_in b_out a_out initial)
    as (_ & _ & Hst & Hca & _).
  - simpl. lra.
  - simpl. lra.
  - discriminate.
  - split; [exact Hst|exact Hca].
Defined.

(** ** The time left along the frames *)

Section Countdown.

Variable pp : Q -> Z.

(** A frame of a running round at a plain time up to 11 writes
    10 - floor(t), which is between -1 and 10 and is -1 at 11 only. *)
Lemma tick_plain (t : Q) (st : Store) :
  gameOver st = false -> plain_time t -> t <= 11 ->
  timeLeft (tick pp (Fin t) st) = num (10 - Qfloor t) /\
  (0 <= Qfloor t <= 11)%Z /\
  (Qfloor t = 11%Z -> t == 11).
Proof.
  intros Hrun Hplain Hle.
  assert (Hfl : (0 <= Qfloor t < 12)%Z).
  { apply Qfloor_bounds; [destruct Hplain as [H|H]|]; unfold inject_Z; lra. }
  split; [|split; [lia|]].
  - rewrite tick_running; [|exact Hrun|apply not_gt_round_end, Hle].
    unfold setTimeLeft. cbn [timeLeft].
    rewrite parseInt_floor; [apply sub_num; lia|exact Hplain|].
    apply Qle_lt_trans with 11; [exact Hle|reflexivity].
  - intros H11. pose proof (Qfloor_le t) as Hf. rewrite H11 in Hf.
    unfold inject_Z in Hf. lra.
Qed.

Lemma ticks_snoc (ts : list Q) (t : Q) (st : Store) :
  ticks pp (map Fin (ts ++ [t])) st = tick pp (Fin t) (ticks pp (map Fin ts) st).
Proof. rewrite map_app, ticks_app. reflexivity. Qed.

Lemma timeLeft_plain_invariant (ts : list Q) :
  Forall plain_time ts ->
  exists k : Z,
    timeLeft (ticks pp (map Fin ts) useStore) = num k /\
    (-1 <= k <= 10)%Z /\
    (k = (-1)%Z -> Exists (fun t => t == 11) ts).
Proof.
  induction ts as [|t ts IH] using rev_ind; intros Hall.
  - exists 10%Z. split; [reflexivity|]. split; lia.
  - apply Forall_app in Hall. destruct Hall as [Hts Ht].
    inversion Ht as [|? ? Hplain _]; subst.
    destruct (IH Hts) as (k & Hk & Hrange & Hminus).
    rewrite ticks_snoc.
    assert (Hkeep : Exists (fun t0 => t0 == 11) ts ->
                    Exists (fun t0 => t0 == 11) (ts ++ [t])).
    { intros H. apply Exists_app. left. exact H. }
    destruct (gameOver (ticks pp (map Fin ts) useStore)) eqn:Hg.
    + rewrite tick_over by assumption.
      exists k. split; [exact Hk|]. split; [exact Hrange|].
      intros H. apply Hkeep, Hminus, H.
    + destruct (Fin t >? ROUND_DURATION + num 1)%js eqn:Hend.
      * rewrite tick_ends by assumption. cbn [setGameOver timeLeft].
        exists k. split; [exact Hk|]. split; [exact Hrange|].
        intros H. apply Hkeep, Hminus, H.
      * apply not_gt_round_end in Hend.
        destruct (tick_plain t _ Hg Hplain Hend) as (Hval & Hfl & H11).
        exists (10 - Qfloor t)%Z. split; [exact Hval|]. split; [lia|].
        intros H. apply Exists_app. right. constructor. apply H11. lia.
Qed.

(** X7.  Along frames at plain times (zero or at least 1e-6), in any order,
    the time left is always an integer from -1 to 10; it is -1 only if a
    frame came exactly at 11 s. *)
Theorem timeLeft_between_minus_one_and_ten (ts : list Q) :
  Forall plain_time ts ->
  exists k : Z,
    timeLeft (ticks pp (map Fin ts) useStore) = num k /\
    (-1 <= k <= 10)%Z /\
    (k = (-1)%Z -> Exists (fun t => t == 11) ts).
Proof. exact (timeLeft_plain_invariant ts). Qed.

(** While the round runs, the time left is the one written by the last
    frame. *)
Lemma running_timeLeft (ts : list Q) (t : Q) :
  Forall plain_time (ts ++ [t]) ->
  gameOver (ticks pp (map Fin (ts ++ [t])) useStore) = false ->
  timeLeft (ticks pp (map Fin (ts ++ [t])) useStore) = num (10 - Qfloor t).
Proof.
  intros Hall Hrun. apply Forall_app in Hall. destruct Hall as [_ Ht].
  inversion Ht as [|? ? Hplain _]; subst.
  rewrite ticks_snoc in *. rewrite tick_gameOver in Hrun.
  apply orb_false_iff in Hrun. destruct Hrun as [Hg Hend].
  apply not_gt_round_end in Hend.
  apply (tick_plain t _ Hg Hplain Hend).
Qed.

(** X8.  Along frames at plain times that never go back, the time left
    never goes up: after one more frame it is at most what it was. *)
Theorem timeLeft_never_increases (ts : list Q) (t : Q) :
  Forall plain_time (ts ++ [t]) ->
  nondecreasing (ts ++ [t]) ->
  exists k k' : Z,
    timeLeft (ticks pp (map Fin ts) useStore) = num k /\
    timeLeft (ticks pp (map Fin (ts ++ [t])) useStore) = num k' /\
    (k' <= k)%Z.
Proof.
  intros Hall Hmono.
  pose proof Hall as Hall'. apply Forall_app in Hall'.
  destruct Hall' as [Hts Ht]. inversion Ht as [|? ? Hplain _]; subst.
  destruct (timeLeft_plain_invariant ts Hts) as (k & Hk & _).
  rewrite ticks_snoc.
  destruct (gameOver (ticks pp (map Fin ts) useStore)) eqn:Hg.
  - rewrite tick_over by assumption. exists k, k. repeat split; [assumption..|lia].
  - destruct (Fin t >? ROUND_DURATION + num 1)%js eqn:Hend.
    + rewrite tick_ends by assumption. cbn [setGameOver timeLeft].
      exists k, k. repeat split; [assumption..|lia].
    + apply not_gt_round_end in Hend.
      destruct (tick_plain t _ Hg Hplain Hend) as (Hval & Hfl & _).
      destruct ts as [|t1 ts1] using rev_ind.
      * exists 10%Z, (10 - Qfloor t)%Z.
        split; [reflexivity|]. split; [exact Hval|lia].
      * clear IHts1.
        exists (10 - Qfloor t1)%Z, (10 - Qfloor t)%Z.
        split; [apply running_timeLeft; assumption|].
        split; [exact Hval|].
        apply nondecreasing_prefix in Hmono.
        apply Forall_app in Hmono. destruct Hmono as [_ H1].
        inversion H1 as [|? ? Hle _]; subst.
        apply Qfloor_resp_le in Hle. lia.
Qed.

End Countdown.

Lemma timeLeft_between_witness :
  exists k : Z,
    timeLeft (ticks (fun _ => 0%Z) (map Fin [3 # 2; 11; 1 # 4]) useStore)
    = num k /\
    (-1 <= k <= 10)%Z /\
    (k = (-1)%Z -> Exists (fun t => t == 11) [3 # 2; 11; 1 # 4]).
Proof.
  apply (timeLeft_between_minus_one_and_ten (fun _ => 0%Z) [3 # 2; 11; 1 # 4]).
  repeat (apply Forall_cons; [unfold plain_time; right; lra|]).
  apply Forall_nil.
Defined.

Lemma timeLeft_never_increases_witness :
  exists k k' : Z,
    timeLeft (ticks (fun _ => 0%Z) (map Fin [3 # 2; 5]) useStore) = num k /\
    timeLeft (ticks (fun _ => 0%Z) (map Fin ([3 # 2; 5] ++ [29 # 4])) useStore)
    = num k' /\
    (k' <= k)%Z.
Proof.
  apply (timeLeft_never_increases (fun _ => 0%Z) [3 # 2; 5] (29 # 4)).
  - repeat (apply Forall_cons; [unfold plain_time; right; lra|]).
    apply Forall_nil.
  - simpl. repeat split; lra.
Defined.

(** ** The balls on the court *)

Section Court.

Variable generate : nat -> uuid.

Lemma pointers_snoc (keys : list uuid) (key : uuid) (c : Court) :
  pointers generate (keys ++ [key]) c
  = onPointerDown generate key (pointers generate keys c).
Proof. unfold pointers. rewrite fold_left_app. reflexivity. Qed.

Lemma pointers_app (keys more : list uuid) (c : Court) :
  pointers generate (keys ++ more) c
  = pointers generate more (pointers generate keys c).
Proof. unfold pointers. apply fold_left_app. Qed.

Lemma count_impulse (f : uuid * impulse -> bool)
      (l : list (uuid * impulse)) (p : uuid * impulse) :
  length (filter f (l ++ [p]))
  = (length (filter f l) + (if f p then 1 else 0))%nat.
Proof.
  rewrite filter_app, length_app. simpl. destruct (f p); reflexivity.
Qed.

(** A pointer event on a ball of the court adds one ball and one launch; on
    anything else it does nothing. *)
Lemma onPointerDown_cases (key : uuid) (c : Court) :
  (In key (balls c) /\
   balls (onPointerDown generate key c) = balls c ++ [generate (generated c)] /\
   generated (onPointerDown generate key c) = S (generated c) /\
   impulses (onPointerDown generate key c)
   = (impulses c ++ [(key, (0, 15, -10)%Z)])
       ++ [(generate (generated c), (0, 0, -2)%Z)]) \/
  (~ In key (balls c) /\ onPointerDown generate key c = c).
Proof.
  unfold onPointerDown.
  destruct (existsb (Nat.eqb key) (balls c)) eqn:E.
  - left. apply existsb_exists in E. destruct E as (k & Hin & Hk).
    apply Nat.eqb_eq in Hk. subst k. split; [exact Hin|].
    split; [reflexivity|]. split; reflexivity.
  - right. split; [|reflexivity]. intros Hin.
    assert (H : existsb (Nat.eqb key) (balls c) = true).
    { apply existsb_exists. exists key. split; [exact Hin|apply Nat.eqb_refl]. }
    congruence.
Qed.

Lemma balls_only_grow (keys : list uuid) (c : Court) :
  exists added, balls (pointers generate keys c) = balls c ++ added.
Proof.
  induction keys as [|key keys IH] using rev_ind.
  - exists []. rewrite app_nil_r. reflexivity.
  - destruct IH as (added & IH). rewrite pointers_snoc.
    destruct (onPointerDown_cases key (pointers generate keys c))
      as [(_ & Hb & _)|[_ ->]].
    + rewrite Hb, IH, <- app_assoc. eexists. reflexivity.
    + exists added. exact IH.
Qed.

Lemma nudged_snoc (l : list (uuid * impulse)) (key new : uuid) :
  map fst (filter is_nudge
             ((l ++ [(key, (0, 15, -10)%Z)]) ++ [(new, (0, 0, -2)%Z)]))
  = map fst (filter is_nudge l) ++ [new].
Proof. rewrite !filter_app, !map_app. simpl. rewrite app_nil_r. reflexivity. Qed.

Lemma launched_snoc (l : list (uuid * impulse)) (key new : uuid) :
  map fst (filter is_launch
             ((l ++ [(key, (0, 15, -10)%Z)]) ++ [(new, (0, 0, -2)%Z)]))
  = map fst (filter is_launch l) ++ [key].
Proof. rewrite !filter_app, !map_app. simpl. rewrite app_nil_r. reflexivity. Qed.

(** What holds of the court after its mount and any pointer events. *)
Lemma court_invariant (keys : list uuid) :
  let c := pointers generate keys (Court_mounted generate) in
  balls c = map generate (seq 0 (generated c)) /\
  generated c = S (length (filter is_launch (impulses c))) /\
  map fst (filter is_nudge (impulses c)) = balls c /\
  Forall (fun launched => In launched (balls c))
         (map fst (filter is_launch (impulses c))) /\
  (forall key, In (key, (0, 15, -10)%Z) (impulses c) ->
               exists n, (S n < generated c)%nat /\ key = generate n).
Proof.
  induction keys as [|key keys IH] using rev_ind.
  - simpl. split; [reflexivity|]. split; [reflexivity|].
    split; [reflexivity|]. split; [constructor|].
    intros key [H|[]]. discriminate.
  - cbv zeta in *. rewrite pointers_snoc.
    set (c := pointers generate keys (Court_mounted generate)) in *.
    destruct IH as (Hb & Hg & Hn & Hf & Hl).
    destruct (onPointerDown_cases key c) as [(Hin & Hb' & Hg' & Hi')|[_ ->]];
      [|repeat split; assumption].
    rewrite Hb', Hg', Hi', nudged_snoc, launched_snoc.
    split; [|split; [|split; [|split]]].
    + rewrite seq_S, map_app, <- Hb. reflexivity.
    + rewrite <- (length_map fst), launched_snoc, length_app, length_map.
      simpl. lia.
    + rewrite Hn. reflexivity.
    + apply Forall_app. split.
      * apply (Forall_impl _ (P := fun launched => In launched (balls c)));
          [|exact Hf].
        intros a Ha. apply in_or_app. left. exact Ha.
      * constructor; [|constructor]. apply in_or_app. left. exact Hin.
    + intros k Hk. apply in_app_or in Hk. destruct Hk as [Hk|[Hk|[]]].
      * apply in_app_or in Hk. destruct Hk as [Hk|[Hk|[]]].
        -- destruct (Hl k Hk) as (n & Hlt & ->). exists n. split; [lia|reflexivity].
        -- injection Hk as <-. rewrite Hb in Hin.
           apply in_map_iff in Hin. destruct Hin as (n & <- & Hn').
           apply in_seq in Hn'. exists n. split; [lia|reflexivity].
      * discriminate.
Qed.

(** X9.  After the mount of the court and any pointer events: the balls
    that got the mount nudge are exactly the balls of the court, each once
    and in their order; there is one ball more than launches, and only
    balls of the court were launched; the keys are the identifiers generated
    so far, in the order of generation.  A further pointer event on a ball
    of the court launches that ball and appends exactly one new ball, which
    gets its nudge, whether the ball hit was launched before or not; on
    anything else it changes nothing; and whatever follows only appends to
    the balls. *)
Theorem each_hit_adds_one_ball_each_ball_nudged_once
        (keys more : list uuid) (key : uuid) :
  let c := pointers generate keys (Court_mounted generate) in
  map fst (filter is_nudge (impulses c)) = balls c /\
  length (balls c) = S (length (filter is_launch (impulses c))) /\
  Forall (fun launched => In launched (balls c))
         (map fst (filter is_launch (impulses c))) /\
  balls c = map generate (seq 0 (length (balls c))) /\
  (In key (balls c) ->
   balls (onPointerDown generate key c)
   = balls c ++ [generate (length (balls c))] /\
   impulses (onPointerDown generate key c)
   = impulses c ++ [(key, (0, 15, -10)%Z);
                    (generate (length (balls c)), (0, 0, -2)%Z)]) /\
  (~ In key (balls c) -> onPointerDown generate key c = c) /\
  exists added, balls (pointers generate more c) = balls c ++ added.
Proof.
  intros c. destruct (court_invariant keys) as (Hb & Hg & Hn & Hf & _).
  fold c in Hb, Hg, Hn, Hf.
  assert (Hlen : length (balls c) = generated c).
  { rewrite Hb, length_map, length_seq. reflexivity. }
  rewrite Hlen.
  split; [exact Hn|]. split; [exact Hg|]. split; [exact Hf|].
  split; [exact Hb|]. split; [|split].
  - intros Hin.
    destruct (onPointerDown_cases key c) as [(_ & Hb' & _ & Hi')|[Hno _]];
      [|contradiction].
    split; [exact Hb'|]. rewrite Hi', <- app_assoc. reflexivity.
  - intros Hno.
    destruct (onPointerDown_cases key c) as [(Hin & _)|[_ Hc]];
      [contradiction|exact Hc].
  - apply balls_only_grow.
Qed.

(** X10.  When [uuid.generate] never repeats an identifier, no key occurs
    twice on the court, and the newest ball has never been launched: there
    is always a fresh ball to shoot. *)
Theorem newest_ball_is_fresh (keys : list uuid) :
  (forall m n, generate m = generate n -> m = n) ->
  let c := pointers generate keys (Court_mounted generate) in
  NoDup (balls c) /\
  exists rest newest,
    balls c = rest ++ [newest] /\
    ~ In (newest, (0, 15, -10)%Z) (impulses c).
Proof.
  intros Hinj c. destruct (court_invariant keys) as (Hb & Hg & _ & _ & Hl).
  fold c in Hb, Hg, Hl. split.
  - rewrite Hb. apply NoDup_map_NoDup_ForallPairs; [|apply seq_NoDup].
    intros m n _ _. apply Hinj.
  - rewrite Hg in Hb. rewrite seq_S, map_app in Hb. simpl in Hb.
    eexists. eexists. split; [exact Hb|].
    intros Hin. destruct (Hl _ Hin) as (n & Hlt & Heq).
    apply Hinj in Heq. lia.
Qed.

End Court.

Lemma each_hit_witness :
  let c := pointers (fun n => n) [0; 0]%nat (Court_mounted (fun n => n)) in
  balls (onPointerDown (fun n => n) 1%nat c) = balls c ++ [3%nat] /\
  onPointerDown (fun n => n) 9%nat c = c.
Proof.
  intros c. split.
  - apply (each_hit_adds_one_ball_each_ball_nudged_once
             (fun n => n) [0; 0]%nat [] 1%nat).
    simpl. auto.
  - apply (each_hit_adds_one_ball_each_ball_nudged_once
             (fun n => n) [0; 0]%nat [] 9%nat).
    simpl. intros [H|[H|[H|[]]]]; discriminate.
Defined.

Lemma newest_ball_witness :
  let c := pointers (fun n => n) [0; 0; 1; 9]%nat (Court_mounted (fun n => n)) in
  NoDup (balls c) /\
  exists rest newest,
    balls c = rest ++ [newest] /\
    ~ In (newest, (0, 15, -10)%Z) (impulses c).
Proof.
  apply (newest_ball_is_fresh (fun n => n) [0; 0; 1; 9]%nat).
  intros m n H. exact H.
Defined.
